(** * Part 2: Database Setup -- the seed-and-list application

    A shallow embedding of [part-2-database-setup/app.py]: the two view
    functions [home] and [test_db], the ORM calls they make, and the request
    dispatcher around them.

    The handlers are written once, as command trees over the ORM calls of
    the source.  Two interpreters give them meaning:
    - [run], one request served alone, with an optional storage fault;
    - [run_schedule], several requests interleaved at the granularity of
      single ORM calls, sharing the store. *)

From stdpp Require Import base option list strings.

Local Open Scope string_scope.
Local Open Scope list_scope.
Local Open Scope nat_scope.

(** ** The data model (models.py) *)

(** Modelled from the spec: the [User] class of models.py, which is not part
    of the sources at hand.  Identifier (auto-assigned), username, email,
    optional phone, password hash.  [id] is [None] on an object that has not
    been flushed yet, as on a Python instance built by [User(...)]. *)
Module User.
Record t := make {
  id : option nat;
  username : string;
  email : string;
  phone : option string;
  password_hash : string
}.

(** [User(username=.., email=.., phone=.., password_hash=..)] *)
Definition new (username email : string) (phone : option string)
    (password_hash : string) : t :=
  make None username email phone password_hash.

Definition with_id (i : nat) (u : t) : t :=
  make (Some i) (username u) (email u) (phone u) (password_hash u).
End User.

(** Modelled from the spec: the [Todo] class of models.py.  Identifier
    (auto-assigned), task description, reference to the owner's identifier. *)
Module Todo.
Record t := make {
  id : option nat;
  task_content : string;
  user_id : option nat
}.

(** [Todo(task_content=.., user_id=..)] *)
Definition new (task_content : string) (user_id : option nat) : t :=
  make None task_content user_id.

Definition with_id (i : nat) (x : t) : t :=
  make (Some i) (task_content x) (user_id x).
End Todo.

(** The persisted state: the two tables of todo.db, rows in insertion
    order. *)
Record Db := mkDb {
  user_table : list User.t;
  todo_table : list Todo.t
}.

(** Modelled from the spec: [init_db(app)] creates the tables if absent; on
    a fresh store both are empty. *)
Definition empty_db : Db := mkDb [] [].

(** Modelled from the spec: identifiers are auto-assigned and unique.  The
    next key is one more than the largest key of the table (1 on an empty
    table), which is what an integer primary key gets from SQLite. *)
Definition next_id (keys : list (option nat)) : nat :=
  S (foldr Nat.max 0 (omap (λ k, k) keys)).

(** An INSERT appends the row under its new key.  The reference of a Todo
    row is stored as given: the handlers only ever pass the identifier of a
    user they have just committed. *)
Definition insert_user (u : User.t) (d : Db) : User.t * Db :=
  let u' := User.with_id (next_id (User.id <$> user_table d)) u in
  (u', mkDb (user_table d ++ [u']) (todo_table d)).

Definition insert_todo (x : Todo.t) (d : Db) : Todo.t * Db :=
  let x' := Todo.with_id (next_id (Todo.id <$> todo_table d)) x in
  (x', mkDb (user_table d) (todo_table d ++ [x'])).

(** ** The session (db.session) *)

(** Python objects created by a request, addressed by handle so that the
    identifier written by a flush is seen through every name of the
    object. *)
Inductive Obj :=
| OUser (u : User.t)
| OTodo (x : Todo.t).

Definition handle := nat.

Record Session := mkSession {
  heap : list Obj;
  pending : list handle
}.

Definition new_session : Session := mkSession [] [].

(** One INSERT of the flush: the row gets its key, and the key is written
    back to the object. *)
Definition flush_one (acc : Db * list Obj) (h : handle) : Db * list Obj :=
  let '(d, hp) := acc in
  match hp !! h with
  | Some (OUser u) =>
      let '(u', d') := insert_user u d in (d', <[h := OUser u']> hp)
  | Some (OTodo x) =>
      let '(x', d') := insert_todo x d in (d', <[h := OTodo x']> hp)
  | None => acc
  end.

Definition flush (d : Db) (s : Session) : Db * Session :=
  let '(d', hp) := foldl flush_one (d, heap s) (pending s) in
  (d', mkSession hp []).

Definition attr_id (s : Session) (h : handle) : option nat :=
  match heap s !! h with
  | Some (OUser u) => User.id u
  | Some (OTodo x) => Todo.id x
  | None => None
  end.

(** ** ORM calls *)

Inductive Printed :=
| PUsers (us : list User.t)
| PUser (u : option User.t)
| PCount (n : nat).

(** The calls the handlers make, indexed by what they return. *)
Inductive Op : Type → Type :=
| Construct (o : Obj) : Op handle             (* User(...), Todo(...) *)
| SessionAddAll (hs : list handle) : Op unit  (* db.session.add_all *)
| SessionCommit : Op unit                     (* db.session.commit *)
| AttrId (h : handle) : Op (option nat)       (* obj.id *)
| UserQueryCount : Op nat                     (* User.query.count() *)
| UserQueryAll : Op (list User.t)             (* User.query.all() *)
| UserQueryFirst : Op (option User.t)         (* User.query.first() *)
| TodoQueryAll : Op (list Todo.t)             (* Todo.query.all() *)
| Stdout (label : string) (v : Printed) : Op unit. (* print(label, v) *)

(** Whether a call goes to the storage layer, and so can raise a
    storage-layer error.  Reading [obj.id] after a commit reloads the
    expired object. *)
Definition touches_store {X} (e : Op X) : bool :=
  match e with
  | Construct _ | SessionAddAll _ | Stdout _ _ => false
  | _ => true
  end.

(** What a call does when it succeeds.  A commit is one transaction: the
    whole flush or nothing.  Output of [print] goes to the console, which is
    not part of the modelled state. *)
Definition exec {X} (e : Op X) (d : Db) (s : Session) : X * Db * Session :=
  match e in Op X return X * Db * Session with
  | Construct o => (length (heap s), d, mkSession (heap s ++ [o]) (pending s))
  | SessionAddAll hs => (tt, d, mkSession (heap s) (pending s ++ hs))
  | SessionCommit => let '(d', s') := flush d s in (tt, d', s')
  | AttrId h => (attr_id s h, d, s)
  | UserQueryCount => (length (user_table d), d, s)
  | UserQueryAll => (user_table d, d, s)
  | UserQueryFirst => (head (user_table d), d, s)
  | TodoQueryAll => (todo_table d, d, s)
  | Stdout _ _ => (tt, d, s)
  end.

(** ** Handler programs *)

Inductive Prog (A : Type) : Type :=
| Ret (a : A)
| Vis {X : Type} (e : Op X) (k : X → Prog A).
Arguments Ret {A} a.
Arguments Vis {A X} e k.

Fixpoint bind {A B} (p : Prog A) (f : A → Prog B) : Prog B :=
  match p with
  | Ret a => f a
  | Vis e k => Vis e (λ x, bind (k x) f)
  end.

Definition call {X} (e : Op X) : Prog X := Vis e Ret.

Definition print (label : string) (v : Printed) : Prog unit :=
  call (Stdout label v).

#[export] Instance Prog_ret : MRet Prog := @Ret.
#[export] Instance Prog_bind : MBind Prog := λ A B f p, bind p f.

(** ** Responses *)

Inductive CtxValue :=
| CUsers (us : list User.t)
| CTodos (xs : list Todo.t).

Record Response := mkResponse {
  status : nat;
  template : string;
  context : list (string * CtxValue)
}.

(** [render_template(name, **context)]: the page is returned with status
    200. *)
Definition render_template (name : string) (ctx : list (string * CtxValue))
    : Response :=
  mkResponse 200 name ctx.

(** ** Routes (app.py) *)

(** [@app.route('/')] *)
Definition home : Prog Response :=
  mret (render_template "index.html" []).

(** The body of [if User.query.count() == 0:]. *)
Definition seed : Prog unit :=
  user1 ← call (Construct (OUser
    (User.new "user1" "user1@example.com" None "pass")));
  user2 ← call (Construct (OUser
    (User.new "user2" "user2@example.com" (Some "123-456-7890") "pass")));
  user3 ← call (Construct (OUser
    (User.new "user3" "user3@example.com" None "pass")));
  call (SessionAddAll [user1; user2; user3]);;
  call SessionCommit;;
  id1 ← call (AttrId user1);
  todo1 ← call (Construct (OTodo (Todo.new "Learn Flask" id1)));
  id2 ← call (AttrId user2);
  todo2 ← call (Construct (OTodo (Todo.new "Learn SQLAlchemy" id2)));
  id3 ← call (AttrId user3);
  todo3 ← call (Construct (OTodo (Todo.new "Build Todo App" id3)));
  call (SessionAddAll [todo1; todo2; todo3]);;
  call SessionCommit.

(** [@app.route('/test-db')] *)
Definition test_db : Prog Response :=
  n ← call UserQueryCount;
  (if n =? 0 then seed else mret tt);;
  all_users ← call UserQueryAll;
  print "All Users:" (PUsers all_users);;
  first_user ← call UserQueryFirst;
  print "First User:" (PUser first_user);;
  total_users ← call UserQueryCount;
  print "Total Users:" (PCount total_users);;
  all_todos ← call TodoQueryAll;
  mret (render_template "test_db.html"
          [("users", CUsers all_users); ("todos", CTodos all_todos)]).

(** ** Serving one request *)

Inductive Outcome (A : Type) :=
| Returned (a : A)
| Raised.
Arguments Returned {A} a.
Arguments Raised {A}.

(** [run p fault d s]: the handler [p] runs against store [d] with session
    [s].  [fault = Some n] makes the storage call number [n] of the request
    (counting from 0) raise; nothing catches it, so the handler stops
    there.  The store is as the last successful commit left it. *)
Fixpoint run {A} (p : Prog A) (fault : option nat) (d : Db) (s : Session)
    : Outcome A * Db :=
  match p with
  | Ret a => (Returned a, d)
  | Vis e k =>
      if touches_store e then
        match fault with
        | Some 0 => (Raised, d)
        | _ =>
            let '(x, d', s') := exec e d s in
            run (k x) (pred <$> fault) d' s'
        end
      else
        let '(x, d', s') := exec e d s in run (k x) fault d' s'
  end.

Inductive Route :=
| RouteHome      (* '/' *)
| RouteTestDb.   (* '/test-db' *)

Definition view (r : Route) : Prog Response :=
  match r with
  | RouteHome => home
  | RouteTestDb => test_db
  end.

(** The framework around a view: each request gets a session of its own; a
    returned page goes out with its status, an exception that escapes the
    view becomes a 500 response. *)
Definition serve (r : Route) (fault : option nat) (d : Db) : nat * Db :=
  match run (view r) fault d new_session with
  | (Returned resp, d') => (status resp, d')
  | (Raised, d') => (500, d')
  end.

Definition status_of (r : Route) (fault : option nat) (d : Db) : nat :=
  fst (serve r fault d).

Definition store_after (r : Route) (fault : option nat) (d : Db) : Db :=
  snd (serve r fault d).

Example test_db_fresh_users :
  User.username <$> user_table (store_after RouteTestDb None empty_db)
  = ["user1"; "user2"; "user3"].
Proof. reflexivity. Qed.

(** A sequence of requests, each with its own fault, served one after the
    other. *)
Definition serve_all (reqs : list (Route * option nat)) (d : Db) : Db :=
  foldl (λ d rq, store_after rq.1 rq.2 d) d reqs.

(** ** Requests served concurrently *)

(** A request in flight: what is left of its handler, and its own session.
    Threads share the store and nothing else. *)
Record Thread := mkThread {
  code : Prog Response;
  sess : Session
}.

Definition spawn (r : Route) : Thread := mkThread (view r) new_session.

Definition step_thread (d : Db) (t : Thread) : option (Db * Thread) :=
  match code t with
  | Ret _ => None
  | Vis e k =>
      let '(x, d', s') := exec e d (sess t) in Some (d', mkThread (k x) s')
  end.

(** Thread [i] makes its next ORM call; the call is atomic. *)
Definition sched_step (i : nat) (c : Db * list Thread)
    : option (Db * list Thread) :=
  t ← c.2 !! i;
  c' ← step_thread c.1 t;
  Some (c'.1, <[i := c'.2]> c.2).

Fixpoint run_schedule (sch : list nat) (c : Db * list Thread)
    : option (Db * list Thread) :=
  match sch with
  | [] => Some c
  | i :: sch => c' ← sched_step i c; run_schedule sch c'
  end.

Definition result (t : Thread) : option Response :=
  match code t with
  | Ret resp => Some resp
  | Vis _ _ => None
  end.

(** Whether thread [t] is inside the seed branch: past the guard, with its
    first commit still ahead. *)
Definition about_to_seed (t : Thread) : bool :=
  match code t with
  | Vis (Construct (OUser _)) _ => true
  | _ => false
  end.

(** What is seen of a configuration: a function of the store and the
    threads, if the schedule could be run. *)
Definition observe {A} (f : Db → list Thread → A)
    (c : option (Db * list Thread)) : option A :=
  match c with
  | Some (d, ts) => Some (f d ts)
  | None => None
  end.

(** The status each request was answered with, [None] while in flight. *)
Definition statuses (ts : list Thread) : list (option nat) :=
  (λ t, status <$> result t) <$> ts.

(** ** Properties of stores *)

#[export] Instance User_eq_dec : EqDecision User.t.
Proof. solve_decision. Defined.

#[export] Instance Todo_eq_dec : EqDecision Todo.t.
Proof. solve_decision. Defined.

(** The user a to-do item refers to, if its reference resolves. *)
Definition owner_of (d : Db) (x : Todo.t) : option User.t :=
  i ← Todo.user_id x;
  find (λ u, bool_decide (User.id u = Some i)) (user_table d).

Definition referential_integrity (d : Db) : Prop :=
  Forall (λ x, is_Some (owner_of d x)) (todo_table d).

#[export] Instance referential_integrity_dec d :
  Decision (referential_integrity d).
Proof. unfold referential_integrity. apply _. Defined.

(** The rows the seed branch writes, on top of to-do rows [xs]. *)
Definition seed_users : list User.t :=
  [ User.make (Some 1) "user1" "user1@example.com" None "pass";
    User.make (Some 2) "user2" "user2@example.com" (Some "123-456-7890")
      "pass";
    User.make (Some 3) "user3" "user3@example.com" None "pass" ].

Definition users_seeded (xs : list Todo.t) : Db := mkDb seed_users xs.

Definition all_seeded (xs : list Todo.t) : Db :=
  let d1 := (insert_todo (Todo.new "Learn Flask" (Some 1)) (users_seeded xs)).2 in
  let d2 := (insert_todo (Todo.new "Learn SQLAlchemy" (Some 2)) d1).2 in
  (insert_todo (Todo.new "Build Todo App" (Some 3)) d2).2.

(** ** The console *)



(** The page a request is answered with, if its view returns one. *)
Definition page (r : Route) (fault : option nat) (d : Db) : option Response :=
  match run (view r) fault d new_session with
  | (Returned resp, _) => Some resp
  | (Raised, _) => None
  end.

(** ** Further properties of stores and handlers *)

(** The pair of row counts of a store. *)
Definition row_counts (d : Db) : nat * nat :=
  (length (user_table d), length (todo_table d)).

(** Every row of a table has a key, and no key occurs twice. *)
Definition keys_ok (ks : list (option nat)) : Prop :=
  Forall is_Some ks ∧ NoDup ks.

Definition db_keys_ok (d : Db) : Prop :=
  keys_ok (User.id <$> user_table d) ∧ keys_ok (Todo.id <$> todo_table d).

(** [read_only d p s]: run from store [d] with session [s], no call of [p]
    changes the store. *)
Fixpoint read_only {A} (d : Db) (p : Prog A) (s : Session) : Prop :=
  match p with
  | Ret _ => True
  | Vis e k =>
      (exec e d s).1.2 = d ∧ read_only d (k (exec e d s).1.1) (exec e d s).2
  end.

(** The rows of a store are carried over: each new table starts with the
    old rows, in order. *)
Definition grows (d d' : Db) : Prop :=
  user_table d `prefix_of` user_table d'
  ∧ todo_table d `prefix_of` todo_table d'.

(** [keeps_integrity d p s]: [p], run with session [s] among other
    requests that may append rows to the store between any two of its calls
    (the store has grown from [d] when the next call is made), takes stores
    with referential integrity to stores with referential integrity. *)
Fixpoint keeps_integrity {A} (d : Db) (p : Prog A) (s : Session) : Prop :=
  match p with
  | Ret _ => True
  | Vis e k =>
      ∀ d', grows d d' → referential_integrity d' →
        referential_integrity (exec e d' s).1.2
        ∧ keeps_integrity (exec e d' s).1.2 (k (exec e d' s).1.1)
            (exec e d' s).2
  end.

(** A user row with key [i] is in the store. *)
Definition has_user (d : Db) (i : nat) : Prop :=
  ∃ u, In u (user_table d) ∧ User.id u = Some i.

(** The threads of a configuration keep referential integrity from where
    they stand: each one from some store the current one has grown from. *)
Definition threads_keep_integrity (d : Db) (ts : list Thread) : Prop :=
  Forall (λ t, ∃ d0, grows d0 d ∧ keeps_integrity d0 (code t) (sess t)) ts.

(** * Proofs *)

(** Closed decidable goals are settled by evaluation. *)
Ltac by_evaluation :=
  apply (bool_decide_unpack _); vm_compute; exact I.

(** ** Symbolic execution of the diagnostic route *)

(** With users present the guard is false: four more reads follow, and whatever
    the fault the store is untouched. *)
Lemma serve_test_db_nonempty f u us xs :
  store_after RouteTestDb f (mkDb (u :: us) xs) = mkDb (u :: us) xs.
Proof. destruct f as [[|[|[|[|[|n]]]]]|]; reflexivity. Qed.

(** Without users the seed branch runs.  Storage calls 0 and 1 are the
    guard and the first commit, 2 to 5 the three identifier reads and the
    second commit, 6 to 9 the final reads. *)
Lemma serve_test_db_empty f xs :
  serve RouteTestDb f (mkDb [] xs) =
    match f with
    | Some k =>
        if decide (k < 2) then (500, mkDb [] xs)
        else if decide (k < 6) then (500, users_seeded xs)
        else if decide (k < 10) then (500, all_seeded xs)
        else (200, all_seeded xs)
    | None => (200, all_seeded xs)
    end.
Proof.
  destruct f as [[|[|[|[|[|[|[|[|[|[|n]]]]]]]]]]|]; reflexivity.
Qed.

Lemma serve_test_db_guarded f d :
  user_table d ≠ [] → store_after RouteTestDb f d = d.
Proof.
  destruct d as [[|u us] xs]; [done|].
  intros _. apply serve_test_db_nonempty.
Qed.

Lemma serve_home f d : serve RouteHome f d = (200, d).
Proof. reflexivity. Qed.

(** What a request can do to the store: nothing, or one of the two commits
    of the seed branch. *)
Lemma store_after_cases r f d :
  store_after r f d = d
  ∨ (user_table d = [] ∧
     (store_after r f d = users_seeded (todo_table d)
      ∨ store_after r f d = all_seeded (todo_table d))).
Proof.
  destruct r; [by left|].
  destruct d as [[|u us] xs]; [|left; apply serve_test_db_nonempty].
  unfold store_after. rewrite serve_test_db_empty.
  destruct f as [k|]; [|by right; split; [|right]].
  repeat case_decide; simpl; auto.
Qed.

Lemma all_seeded_tables xs :
  ∃ x1 x2 x3,
    all_seeded xs = mkDb seed_users (xs ++ [x1; x2; x3])
    ∧ Todo.task_content <$> [x1; x2; x3]
        = ["Learn Flask"; "Learn SQLAlchemy"; "Build Todo App"]
    ∧ Todo.user_id <$> [x1; x2; x3] = User.id <$> seed_users.
Proof.
  eexists _, _, _. split.
  - unfold all_seeded, users_seeded, insert_todo. simpl.
    rewrite <- !app_assoc. reflexivity.
  - split; reflexivity.
Qed.

Lemma test_db_completed_empty f d :
  user_table d = [] →
  status_of RouteTestDb f d = 200 →
  store_after RouteTestDb f d = all_seeded (todo_table d).
Proof.
  destruct d as [us xs]. simpl. intros ->.
  unfold status_of, store_after. rewrite serve_test_db_empty.
  destruct f as [k|]; [|done]. by repeat case_decide.
Qed.

Lemma owner_of_seed_users xs x i :
  Todo.user_id x = Some i →
  owner_of (mkDb seed_users xs) x
  = find (λ u, bool_decide (User.id u = Some i)) seed_users.
Proof. unfold owner_of. by intros ->. Qed.

(** ** The home route *)

(** C8: for every store state (and whatever the storage layer would do), a
    request to the home route is answered with status 200 and leaves the
    store exactly as it was. *)
Theorem home_returns_200_and_keeps_store (f : option nat) (d : Db) :
  status_of RouteHome f d = 200 ∧ store_after RouteHome f d = d.
Proof. unfold status_of, store_after. by rewrite serve_home. Qed.

(** ** The diagnostic route on a fresh store *)

(** C1: on the freshly initialised (empty) store, one request to /test-db
    is answered with status 200 and leaves exactly 3 User rows and exactly
    3 Todo rows; the owner reference of every Todo resolves to a User, and
    the three owners are pairwise distinct. *)
Theorem test_db_seeds_fresh_store :
  let d := store_after RouteTestDb None empty_db in
  status_of RouteTestDb None empty_db = 200
  ∧ length (user_table d) = 3
  ∧ length (todo_table d) = 3
  ∧ Forall (λ x, is_Some (owner_of d x)) (todo_table d)
  ∧ NoDup (owner_of d <$> todo_table d).
Proof.
  cbv zeta. split; [by vm_compute|].
  split; [by vm_compute|]. split; [by vm_compute|].
  split; by_evaluation.
Qed.

(** C2: after a first /test-db request on the fresh store, a second
    /test-db request, with or without a storage fault, leaves the number of
    User rows and the number of Todo rows as they were. *)
Theorem test_db_second_request_keeps_counts (f : option nat) :
  let d1 := store_after RouteTestDb None empty_db in
  let d2 := store_after RouteTestDb f d1 in
  length (user_table d2) = length (user_table d1)
  ∧ length (todo_table d2) = length (todo_table d1).
Proof.
  intros d1 d2. subst d2.
  by rewrite serve_test_db_guarded.
Qed.

(** C3: on a store holding exactly one User row and no Todo row, a
    /test-db request leaves the number of Todo rows at zero. *)
Theorem test_db_one_user_no_todos (f : option nat) (d : Db) :
  length (user_table d) = 1 →
  length (todo_table d) = 0 →
  length (todo_table (store_after RouteTestDb f d)) = 0.
Proof.
  intros Hu Hx. rewrite serve_test_db_guarded; [done|].
  by destruct (user_table d).
Qed.

Lemma test_db_one_user_no_todos_witness :
  length (todo_table (store_after RouteTestDb None
    (mkDb [User.make (Some 7) "ann" "ann@example.com" None "h"] []))) = 0.
Proof.
  apply (test_db_one_user_no_todos None
    (mkDb [User.make (Some 7) "ann" "ann@example.com" None "h"] []));
    reflexivity.
Defined.

(** ** The seed branch *)

(** C4: when the guard finds no user and the request completes, the User
    table holds three rows named user1, user2, user3, of which only user2
    has a phone, 123-456-7890; three Todo rows are appended, with the texts
    Learn Flask, Learn SQLAlchemy, Build Todo App, owned by user1, user2,
    user3 in that order. *)
Theorem test_db_seed_literals (f : option nat) (d : Db) :
  user_table d = [] →
  status_of RouteTestDb f d = 200 →
  ∃ u1 u2 u3 x1 x2 x3,
    let d' := store_after RouteTestDb f d in
    user_table d' = [u1; u2; u3]
    ∧ todo_table d' = todo_table d ++ [x1; x2; x3]
    ∧ User.username <$> [u1; u2; u3] = ["user1"; "user2"; "user3"]
    ∧ User.phone <$> [u1; u2; u3] = [None; Some "123-456-7890"; None]
    ∧ Todo.task_content <$> [x1; x2; x3]
        = ["Learn Flask"; "Learn SQLAlchemy"; "Build Todo App"]
    ∧ owner_of d' <$> [x1; x2; x3] = [Some u1; Some u2; Some u3].
Proof.
  intros Hu H200. simpl.
  rewrite (test_db_completed_empty f d Hu H200).
  destruct (all_seeded_tables (todo_table d))
    as (x1 & x2 & x3 & -> & Htask & Hown).
  injection Hown as Ho1 Ho2 Ho3.
  eexists _, _, _, x1, x2, x3. simpl.
  split; [reflexivity|]. split; [reflexivity|].
  split; [reflexivity|]. split; [reflexivity|]. split; [exact Htask|].
  by rewrite (owner_of_seed_users _ x1 1 Ho1), (owner_of_seed_users _ x2 2 Ho2),
    (owner_of_seed_users _ x3 3 Ho3).
Qed.

Lemma test_db_seed_literals_witness :
  ∃ u1 u2 u3 x1 x2 x3,
    let d' := store_after RouteTestDb None empty_db in
    user_table d' = [u1; u2; u3]
    ∧ todo_table d' = [] ++ [x1; x2; x3]
    ∧ User.username <$> [u1; u2; u3] = ["user1"; "user2"; "user3"]
    ∧ User.phone <$> [u1; u2; u3] = [None; Some "123-456-7890"; None]
    ∧ Todo.task_content <$> [x1; x2; x3]
        = ["Learn Flask"; "Learn SQLAlchemy"; "Build Todo App"]
    ∧ owner_of d' <$> [x1; x2; x3] = [Some u1; Some u2; Some u3].
Proof.
  apply (test_db_seed_literals None empty_db); reflexivity.
Defined.

(** C9: on a store with no User row but some Todo rows, a /test-db request
    that completes has run the seed branch all the same: the store then
    holds exactly 3 User rows, and the old Todo rows followed by exactly 3
    new ones, each of which refers to one of the new users. *)
Theorem test_db_seeds_despite_todos (f : option nat) (d : Db) :
  user_table d = [] →
  todo_table d ≠ [] →
  status_of RouteTestDb f d = 200 →
  let d' := store_after RouteTestDb f d in
  length (user_table d') = 3
  ∧ ∃ x1 x2 x3,
      todo_table d' = todo_table d ++ [x1; x2; x3]
      ∧ Forall (λ x, ∃ u, owner_of d' x = Some u ∧ u ∈ user_table d')
          [x1; x2; x3].
Proof.
  intros Hu _ H200. simpl.
  rewrite (test_db_completed_empty f d Hu H200).
  destruct (all_seeded_tables (todo_table d))
    as (x1 & x2 & x3 & -> & _ & Hown).
  injection Hown as Ho1 Ho2 Ho3.
  split; [reflexivity|]. exists x1, x2, x3. split; [reflexivity|].
  repeat constructor;
    (eexists; split;
      [by erewrite owner_of_seed_users by eassumption|]);
    simpl; unfold seed_users; rewrite !elem_of_cons; auto.
Qed.

Lemma test_db_seeds_despite_todos_witness :
  let d := mkDb [] [Todo.make (Some 4) "Water plants" (Some 9)] in
  let d' := store_after RouteTestDb None d in
  length (user_table d') = 3
  ∧ ∃ x1 x2 x3,
      todo_table d' = todo_table d ++ [x1; x2; x3]
      ∧ Forall (λ x, ∃ u, owner_of d' x = Some u ∧ u ∈ user_table d')
          [x1; x2; x3].
Proof.
  apply (test_db_seeds_despite_todos None
    (mkDb [] [Todo.make (Some 4) "Water plants" (Some 9)]));
    [reflexivity|discriminate|reflexivity].
Defined.

(** ** Rows are never removed *)

Lemma store_after_grows r f d :
  user_table d `prefix_of` user_table (store_after r f d)
  ∧ todo_table d `prefix_of` todo_table (store_after r f d).
Proof.
  destruct (store_after_cases r f d) as [->|[Hu [->| ->]]]; [done| |].
  - rewrite Hu. split; [apply prefix_nil|done].
  - rewrite Hu.
    destruct (all_seeded_tables (todo_table d)) as (x1 & x2 & x3 & -> & _).
    split; [apply prefix_nil|apply prefix_app_r; done].
Qed.

(** C7: whatever the store, the route and the storage fault, every User
    row and every Todo row present before a request is present after it,
    in the same order at the head of its table; in particular neither row
    count decreases.  The store changes at all only when /test-db finds no
    user, that is, in the seed branch. *)
Theorem requests_never_delete_rows (r : Route) (f : option nat) (d : Db) :
  let d' := store_after r f d in
  user_table d `prefix_of` user_table d'
  ∧ todo_table d `prefix_of` todo_table d'
  ∧ user_table d ⊆ user_table d'
  ∧ todo_table d ⊆ todo_table d'
  ∧ length (user_table d) ≤ length (user_table d')
  ∧ length (todo_table d) ≤ length (todo_table d')
  ∧ (d' = d ∨ (r = RouteTestDb ∧ user_table d = [])).
Proof.
  destruct (store_after_grows r f d) as [Hu Hx]. simpl.
  repeat split; try done.
  - intros u Hin. by apply (elem_of_prefix (user_table d)).
  - intros x Hin. by apply (elem_of_prefix (todo_table d)).
  - by apply prefix_length.
  - by apply prefix_length.
  - destruct r; [by left|].
    destruct (store_after_cases RouteTestDb f d) as [?|[? _]]; auto.
Qed.

(** ** Referential integrity *)

Lemma referential_integrity_no_users d :
  user_table d = [] → referential_integrity d → todo_table d = [].
Proof.
  unfold referential_integrity, owner_of. intros ->.
  destruct (todo_table d) as [|x xs]; [done|].
  intros [[u Hu] _]%Forall_cons. by destruct (Todo.user_id x).
Qed.

Lemma referential_integrity_step r f d :
  referential_integrity d → referential_integrity (store_after r f d).
Proof.
  intros Hd.
  destruct (store_after_cases r f d) as [->|[Hu Hseed]]; [done|].
  rewrite (referential_integrity_no_users d Hu Hd) in Hseed.
  destruct Hseed as [-> | ->]; by_evaluation.
Qed.

(** C6: every operation of the application preserves referential
    integrity (each Todo's owner reference resolves to a User row), under
    any storage fault; hence it holds in every store reached from the empty
    store by requests to the two routes. *)
Theorem referential_integrity_invariant :
  (∀ r f d,
      referential_integrity d → referential_integrity (store_after r f d))
  ∧ (∀ reqs, referential_integrity (serve_all reqs empty_db)).
Proof.
  split; [apply referential_integrity_step|].
  intros reqs. unfold serve_all.
  assert (referential_integrity empty_db) as H0 by constructor.
  revert H0. generalize empty_db.
  induction reqs as [|[r f] reqs IH]; intros d Hd; [done|].
  simpl. apply IH. by apply referential_integrity_step.
Qed.

Lemma referential_integrity_invariant_witness :
  referential_integrity
    (store_after RouteTestDb (Some 7)
       (mkDb [User.make (Some 5) "bob" "bob@example.com" None "h"]
             [Todo.make (Some 1) "Shop" (Some 5)]))
  ∧ referential_integrity
      (serve_all [(RouteTestDb, Some 3); (RouteHome, None);
                  (RouteTestDb, None)] empty_db).
Proof.
  split.
  - apply (proj1 referential_integrity_invariant).
    by_evaluation.
  - apply (proj2 referential_integrity_invariant).
Defined.

(** ** The two commits of the seed branch *)

Lemma serve_all_guarded reqs d :
  user_table d ≠ [] → serve_all reqs d = d.
Proof.
  intros Hd. unfold serve_all.
  induction reqs as [|[[] f] reqs IH]; simpl; [done|done|].
  by rewrite serve_test_db_guarded.
Qed.

(** C5: the seed branch is not atomic.  If the storage layer raises after
    the first commit and before the second one has completed (storage calls
    2 to 5 of the request: the three identifier reads and the second
    commit), the exception leaves the handler (the request is answered with
    500), the three users are in the store and no Todo row is.  Every later
    /test-db request then finds a non-zero user count, and no sequence of
    later requests changes the store: the users stay without todos. *)
Theorem seed_not_atomic (k : nat) :
  2 ≤ k < 6 →
  let d1 := store_after RouteTestDb (Some k) empty_db in
  (run test_db (Some k) empty_db new_session).1 = Raised
  ∧ status_of RouteTestDb (Some k) empty_db = 500
  ∧ user_table d1 = seed_users
  ∧ todo_table d1 = []
  ∧ (∀ f, (run (call UserQueryCount) f d1 new_session).1 ≠ Returned 0)
  ∧ (∀ reqs, serve_all reqs d1 = d1).
Proof.
  intros Hk.
  assert (k = 2 ∨ k = 3 ∨ k = 4 ∨ k = 5) as Hcases by lia.
  assert (store_after RouteTestDb (Some k) empty_db = users_seeded []) as Hd1.
  { unfold store_after, empty_db. rewrite serve_test_db_empty.
    by repeat case_decide; try lia. }
  simpl. rewrite Hd1.
  split; [by destruct Hcases as [->|[->|[->| ->]]]|].
  split; [by destruct Hcases as [->|[->|[->| ->]]]|].
  split; [done|]. split; [done|]. split.
  - by intros [[|n]|].
  - intros reqs. by apply serve_all_guarded.
Qed.

Lemma seed_not_atomic_witness :
  let d1 := store_after RouteTestDb (Some 5) empty_db in
  (run test_db (Some 5) empty_db new_session).1 = Raised
  ∧ status_of RouteTestDb (Some 5) empty_db = 500
  ∧ user_table d1 = seed_users
  ∧ todo_table d1 = []
  ∧ (∀ f, (run (call UserQueryCount) f d1 new_session).1 ≠ Returned 0)
  ∧ (∀ reqs, serve_all reqs d1 = d1).
Proof.
  apply (seed_not_atomic 5). lia.
Defined.

(** ** Concurrent requests *)

(** A thread scheduled alone behaves as [run] without fault says. *)
Lemma run_schedule_alone (p : Prog Response) (d : Db) (s : Session) :
  ∃ n resp s',
    run p None d s = (Returned resp, (run p None d s).2)
    ∧ run_schedule (replicate n 0) (d, [mkThread p s])
      = Some ((run p None d s).2, [mkThread (Ret resp) s']).
Proof.
  revert d s. induction p as [resp|X e k IH]; intros d s.
  - by exists 0, resp, s.
  - destruct (exec e d s) as [[x d1] s1] eqn:He.
    destruct (IH x d1 s1) as (n & resp & s' & Hrun & Hsch).
    exists (S n), resp, s'. simpl.
    unfold sched_step, step_thread. simpl. rewrite He. simpl.
    destruct (touches_store e); simpl; by rewrite Hsch, Hrun.
Qed.

(** The interleaving in which both requests evaluate the guard first, then
    the first one runs to its end, then the second one. *)
Definition guards_first : list nat := [0; 1].
Definition then_each_in_turn : list nat := replicate 20 0 ++ replicate 20 1.

(** C10: two /test-db requests on the empty store, interleaved so that both
    evaluate the guard before either commits, both enter the seed branch
    and both complete; the store then holds every seed user twice, the
    usernames and emails duplicated.  Served one after the other, the same
    two requests leave three users. *)
Theorem concurrent_test_db_duplicates_seed :
  let c0 := (empty_db, [spawn RouteTestDb; spawn RouteTestDb]) in
  let c1 := run_schedule guards_first c0 in
  let c2 := match c1 with
            | Some c => run_schedule then_each_in_turn c
            | None => None
            end in
  observe (λ d _, d) c1 = Some empty_db
  ∧ observe (λ _ ts, about_to_seed <$> ts) c1 = Some [true; true]
  ∧ observe (λ _ ts, statuses ts) c2 = Some [Some 200; Some 200]
  ∧ observe (λ d _, User.username <$> user_table d) c2
    = Some ["user1"; "user2"; "user3"; "user1"; "user2"; "user3"]
  ∧ observe (λ d _, User.email <$> user_table d) c2
    = Some ["user1@example.com"; "user2@example.com"; "user3@example.com";
            "user1@example.com"; "user2@example.com"; "user3@example.com"]
  ∧ length (user_table (serve_all [(RouteTestDb, None); (RouteTestDb, None)]
                          empty_db)) = 3.
Proof.
  cbv zeta. repeat split; by vm_compute.
Qed.

(** * Further properties *)

(** ** What the diagnostic page shows and prints *)

Lemma test_db_store_has_user d :
  user_table (store_after RouteTestDb None d) ≠ [].
Proof. by destruct d as [[|u us] xs]. Qed.



(** ** Seeding happens once *)

(** X3: whatever the store, once one /test-db request has run without
    storage fault, no later sequence of requests, to either route and under
    any storage faults, changes the store any more. *)
Theorem store_settles_after_test_db (d : Db)
    (reqs : list (Route * option nat)) :
  serve_all ((RouteTestDb, None) :: reqs) d
  = store_after RouteTestDb None d.
Proof.
  simpl. apply serve_all_guarded, test_db_store_has_user.
Qed.

Lemma serve_all_snoc reqs r f d :
  serve_all (reqs ++ [(r, f)]) d = store_after r f (serve_all reqs d).
Proof. unfold serve_all. by rewrite foldl_app. Qed.

Lemma serve_all_from_empty reqs :
  serve_all reqs empty_db = empty_db
  ∨ serve_all reqs empty_db = users_seeded []
  ∨ serve_all reqs empty_db = all_seeded [].
Proof.
  induction reqs as [|[r f] reqs IH] using rev_ind; [by left|].
  rewrite serve_all_snoc.
  destruct IH as [->|[->| ->]].
  - destruct (store_after_cases r f empty_db) as [->|[_ [->| ->]]]; auto.
  - right; left. destruct r; [done|]. by apply serve_test_db_guarded.
  - right; right. destruct r; [done|]. by apply serve_test_db_guarded.
Qed.

(** X4: starting from the empty store, whatever requests are served and
    whatever storage faults hit them, the store holds no rows, or 3 users
    and no todo, or 3 users and 3 todos; each of the three is reached by
    some sequence of requests. *)
Theorem row_counts_from_empty :
  (∀ reqs, row_counts (serve_all reqs empty_db) ∈ [(0, 0); (3, 0); (3, 3)])
  ∧ (∃ reqs, row_counts (serve_all reqs empty_db) = (0, 0))
  ∧ (∃ reqs, row_counts (serve_all reqs empty_db) = (3, 0))
  ∧ (∃ reqs, row_counts (serve_all reqs empty_db) = (3, 3)).
Proof.
  split; [|split; [|split]].
  - intros reqs. rewrite !elem_of_cons.
    destruct (serve_all_from_empty reqs) as [->|[->| ->]]; auto.
  - by exists [(RouteHome, None); (RouteTestDb, Some 1)].
  - by exists [(RouteTestDb, Some 5); (RouteTestDb, None)].
  - by exists [(RouteTestDb, None)].
Qed.

(** ** Storage faults outside the window between the commits *)

(** X5: on a store without users, a storage fault at the guard or at the
    first commit (storage calls 0 and 1) is answered with 500 and leaves
    the store exactly as it was; a later request without fault then seeds
    as if nothing had happened. *)
Theorem early_fault_is_recoverable (k : nat) (d : Db) :
  user_table d = [] →
  k < 2 →
  status_of RouteTestDb (Some k) d = 500
  ∧ store_after RouteTestDb (Some k) d = d
  ∧ serve_all [(RouteTestDb, Some k); (RouteTestDb, None)] d
    = store_after RouteTestDb None d.
Proof.
  destruct d as [us xs]. simpl. intros -> Hk.
  assert (serve RouteTestDb (Some k) (mkDb [] xs) = (500, mkDb [] xs)) as H.
  { rewrite serve_test_db_empty. by rewrite decide_True. }
  unfold status_of, store_after at 1 3. rewrite H. done.
Qed.

Lemma early_fault_is_recoverable_witness :
  let d := mkDb [] [Todo.make (Some 2) "Call home" None] in
  status_of RouteTestDb (Some 1) d = 500
  ∧ store_after RouteTestDb (Some 1) d = d
  ∧ serve_all [(RouteTestDb, Some 1); (RouteTestDb, None)] d
    = store_after RouteTestDb None d.
Proof.
  apply (early_fault_is_recoverable 1
    (mkDb [] [Todo.make (Some 2) "Call home" None])); [reflexivity|lia].
Defined.

(** X6: on a store without users, a storage fault in one of the four final
    reads (storage calls 6 to 9) is answered with 500 although both commits
    are done: the store is the one a request without fault leaves, and
    the next request without fault is answered 200 with the same page as
    if the seeding request itself had succeeded. *)
Theorem late_fault_keeps_seed (k : nat) (d : Db) :
  user_table d = [] →
  6 ≤ k < 10 →
  status_of RouteTestDb (Some k) d = 500
  ∧ store_after RouteTestDb (Some k) d = store_after RouteTestDb None d
  ∧ page RouteTestDb None (store_after RouteTestDb (Some k) d)
    = page RouteTestDb None d.
Proof.
  destruct d as [us xs]. simpl. intros -> Hk.
  assert (serve RouteTestDb (Some k) (mkDb [] xs) = (500, all_seeded xs))
    as H.
  { rewrite serve_test_db_empty.
    rewrite decide_False, decide_False, decide_True by lia. done. }
  unfold status_of, store_after. rewrite H. done.
Qed.

Lemma late_fault_keeps_seed_witness :
  status_of RouteTestDb (Some 8) empty_db = 500
  ∧ store_after RouteTestDb (Some 8) empty_db
    = store_after RouteTestDb None empty_db
  ∧ page RouteTestDb None (store_after RouteTestDb (Some 8) empty_db)
    = page RouteTestDb None empty_db.
Proof.
  apply (late_fault_keeps_seed 8 empty_db); [reflexivity|lia].
Defined.

(** ** No ORM call removes or rewrites a row *)

#[export] Instance grows_preorder : PreOrder grows.
Proof.
  split.
  - by intros d.
  - intros d1 d2 d3 [Hu1 Hx1] [Hu2 Hx2]. split; by etrans.
Qed.

Lemma flush_one_grows acc h : grows acc.1 (flush_one acc h).1.
Proof.
  destruct acc as [d hp]. unfold flush_one. simpl.
  destruct (hp !! h) as [[u|x]|]; simpl; [| |done].
  - split; simpl; [by apply prefix_app_r|done].
  - split; simpl; [done|by apply prefix_app_r].
Qed.

Lemma foldl_flush_one_grows hs acc :
  grows acc.1 (foldl flush_one acc hs).1.
Proof.
  revert acc. induction hs as [|h hs IH]; intros acc; [done|].
  simpl. etrans; [apply flush_one_grows|apply IH].
Qed.

Lemma exec_grows {X} (e : Op X) d s : grows d (exec e d s).1.2.
Proof.
  destruct e; simpl; try done.
  unfold flush.
  pose proof (foldl_flush_one_grows (pending s) (d, heap s)) as H.
  by destruct (foldl flush_one (d, heap s) (pending s)).
Qed.

Lemma run_grows {A} (p : Prog A) f d s : grows d (run p f d s).2.
Proof.
  revert f d s. induction p as [a|X e k IH]; intros f d s; [done|].
  simpl. pose proof (exec_grows e d s) as He.
  destruct (exec e d s) as [[x d1] s1]. simpl in He.
  destruct (touches_store e); [destruct f as [[|n]|]|];
    try done; by (etrans; [exact He|apply IH]).
Qed.

Lemma sched_step_grows i c c' : sched_step i c = Some c' → grows c.1 c'.1.
Proof.
  destruct c as [d ts]. unfold sched_step, step_thread. simpl.
  destruct (ts !! i) as [t|]; [|done]. simpl.
  destruct (code t) as [resp|X e k]; [done|]. simpl.
  pose proof (exec_grows e d (sess t)) as He.
  destruct (exec e d (sess t)) as [[x d1] s1].
  simpl. by intros [= <-].
Qed.

Lemma run_schedule_grows sch c c' :
  run_schedule sch c = Some c' → grows c.1 c'.1.
Proof.
  revert c. induction sch as [|i sch IH]; intros c; simpl.
  - by intros [= ->].
  - destruct (sched_step i c) as [c1|] eqn:Hs; [|done]. simpl.
    intros H. etrans; [by apply (sched_step_grows i)|by apply IH].
Qed.

(** X7: no call the handlers make removes or rewrites a stored row.
    Whatever handler code runs, alone under any storage fault or as several
    requests interleaved in any order, each table of the store afterwards
    starts with the rows it had before, in the same order. *)
Theorem rows_survive_any_interleaving :
  (∀ (p : Prog Response) f d s, grows d (run p f d s).2)
  ∧ (∀ sch d ts,
       from_option (λ c', grows d c'.1) True (run_schedule sch (d, ts))).
Proof.
  split; [intros; apply run_grows|].
  intros sch d ts.
  destruct (run_schedule sch (d, ts)) as [c'|] eqn:H; [|done].
  simpl. by apply (run_schedule_grows sch (d, ts)).
Qed.

(** ** Concurrent requests on a seeded store *)

Lemma view_read_only r d :
  user_table d ≠ [] → read_only d (view r) new_session.
Proof.
  destruct d as [[|u us] xs]; [done|]. intros _.
  destruct r; simpl; repeat split.
Qed.

Definition all_read_only (d : Db) (ts : list Thread) : Prop :=
  Forall (λ t, read_only d (code t) (sess t)) ts.

Lemma sched_step_read_only i d ts c' :
  all_read_only d ts →
  sched_step i (d, ts) = Some c' →
  c'.1 = d ∧ all_read_only d c'.2.
Proof.
  unfold sched_step, step_thread, all_read_only. simpl. intros Hts.
  destruct (ts !! i) as [t|] eqn:Hi; [|done]. simpl.
  pose proof (Forall_lookup_1 _ _ _ _ Hts Hi) as Ht. simpl in Ht.
  destruct (code t) as [resp|X e k]; [done|]. simpl in *.
  destruct Ht as [Hd Hk].
  destruct (exec e d (sess t)) as [[x d1] s1]. simpl in *.
  intros [= <-]. simpl. split; [done|].
  apply Forall_insert; [done|]. simpl. by subst d1.
Qed.

Lemma run_schedule_read_only sch d ts c' :
  all_read_only d ts →
  run_schedule sch (d, ts) = Some c' →
  c'.1 = d.
Proof.
  revert ts. induction sch as [|i sch IH]; intros ts Hts; simpl.
  - by intros [= <-].
  - destruct (sched_step i (d, ts)) as [[d1 ts1]|] eqn:Hs; [|done]. simpl.
    destruct (sched_step_read_only i d ts _ Hts Hs) as [Hd Hts1].
    simpl in *. subst d1. by apply IH.
Qed.

(** X8: on a store that holds at least one user, requests to the two routes
    never write, however many of them run concurrently and however their
    ORM calls interleave: after any schedule the store is the one the
    requests started from. *)
Theorem seeded_store_is_safe_under_concurrency
    (d : Db) (routes : list Route) (sch : list nat) :
  user_table d ≠ [] →
  from_option (λ c', c'.1 = d) True
    (run_schedule sch (d, spawn <$> routes)).
Proof.
  intros Hd.
  destruct (run_schedule sch (d, spawn <$> routes)) as [c'|] eqn:H; [|done].
  simpl. apply (run_schedule_read_only sch d (spawn <$> routes)); [|done].
  apply Forall_fmap, Forall_forall. intros r _. simpl.
  by apply view_read_only.
Qed.

(** Two diagnostic requests and a home request on a store with one user,
    the two diagnostic ones alternating call by call. *)
Definition one_user_db : Db :=
  mkDb [User.make (Some 4) "eve" "eve@example.com" None "h"]
       [Todo.make (Some 1) "Read" (Some 4)].

Definition alternating : list nat :=
  [0; 1; 0; 1; 0; 1; 0; 1; 0; 1; 0; 1; 0; 1; 0; 1].

Lemma seeded_store_is_safe_under_concurrency_witness :
  from_option (λ c', c'.1 = one_user_db) True
    (run_schedule alternating
       (one_user_db, spawn <$> [RouteTestDb; RouteTestDb; RouteHome])).
Proof.
  apply (seeded_store_is_safe_under_concurrency one_user_db
    [RouteTestDb; RouteTestDb; RouteHome] alternating).
  discriminate.
Defined.

Example alternating_completes :
  observe (λ _ ts, statuses ts)
    (run_schedule alternating
       (one_user_db, spawn <$> [RouteTestDb; RouteTestDb; RouteHome]))
  = Some [Some 200; Some 200; Some 200].
Proof. by vm_compute. Qed.

(** ** Primary keys *)

Lemma next_id_above ks k : Some k ∈ ks → k < next_id ks.
Proof.
  unfold next_id, omap. induction ks as [|[j|] ks IH]; simpl.
  - by intros ?%elem_of_nil.
  - intros [[= ->]|Hin]%elem_of_cons; [lia|]. specialize (IH Hin). lia.
  - intros [?|Hin]%elem_of_cons; [done|]. by apply IH.
Qed.

Lemma keys_ok_snoc ks : keys_ok ks → keys_ok (ks ++ [Some (next_id ks)]).
Proof.
  intros [Hsome Hnodup]. split.
  - apply Forall_app. split; [done|]. by repeat constructor.
  - apply NoDup_app. split; [done|]. split; [|apply NoDup_singleton].
    intros k Hin ->%list_elem_of_singleton.
    apply next_id_above in Hin. lia.
Qed.

Lemma insert_user_keys_ok u d : db_keys_ok d → db_keys_ok (insert_user u d).2.
Proof.
  intros [Hu Hx]. split; simpl; [|done].
  rewrite fmap_app. by apply keys_ok_snoc.
Qed.

Lemma insert_todo_keys_ok x d : db_keys_ok d → db_keys_ok (insert_todo x d).2.
Proof.
  intros [Hu Hx]. split; simpl; [done|].
  rewrite fmap_app. by apply keys_ok_snoc.
Qed.

Lemma foldl_flush_one_keys_ok hs acc :
  db_keys_ok acc.1 → db_keys_ok (foldl flush_one acc hs).1.
Proof.
  revert acc. induction hs as [|h hs IH]; intros [d hp] Hd; [done|].
  simpl. apply IH. simpl in Hd.
  destruct (hp !! h) as [[u|x]|]; simpl; [| |done].
  - by apply insert_user_keys_ok.
  - by apply insert_todo_keys_ok.
Qed.

Lemma exec_keys_ok {X} (e : Op X) d s :
  db_keys_ok d → db_keys_ok (exec e d s).1.2.
Proof.
  intros Hd. destruct e; simpl; try done.
  unfold flush.
  pose proof (foldl_flush_one_keys_ok (pending s) (d, heap s) Hd) as H.
  by destruct (foldl flush_one (d, heap s) (pending s)).
Qed.

Lemma run_keys_ok {A} (p : Prog A) f d s :
  db_keys_ok d → db_keys_ok (run p f d s).2.
Proof.
  revert f d s. induction p as [a|X e k IH]; intros f d s Hd; [done|].
  simpl. pose proof (exec_keys_ok e d s Hd) as He.
  destruct (exec e d s) as [[x d1] s1]. simpl in He.
  destruct (touches_store e); [destruct f as [[|n]|]|];
    try done; by apply IH.
Qed.

Lemma store_after_keys_ok r f d :
  db_keys_ok d → db_keys_ok (store_after r f d).
Proof.
  intros Hd. unfold store_after, serve.
  pose proof (run_keys_ok (view r) f d new_session Hd) as H.
  by destruct (run (view r) f d new_session) as [[resp|] d1].
Qed.

Lemma run_schedule_keys_ok sch c c' :
  db_keys_ok c.1 → run_schedule sch c = Some c' → db_keys_ok c'.1.
Proof.
  revert c. induction sch as [|i sch IH]; intros [d ts] Hd; simpl.
  - by intros [= <-].
  - unfold sched_step at 1, step_thread. simpl.
    destruct (ts !! i) as [t|]; [|done]. simpl.
    destruct (code t) as [resp|X e k]; [done|]. simpl.
    pose proof (exec_keys_ok e d (sess t) Hd) as He.
    destruct (exec e d (sess t)) as [[x d1] s1]. simpl in *.
    by apply IH.
Qed.

#[export] Instance db_keys_ok_dec d : Decision (db_keys_ok d).
Proof. unfold db_keys_ok, keys_ok. apply _. Defined.

(** X9: the handlers leave key assignment to the store, and every row keeps
    a key of its own.  If each User row and each Todo row has a key and no
    key occurs twice in its table, the same holds after any request under
    any storage fault, and after any interleaving of concurrent requests,
    the racing seeders of the empty store included. *)
Theorem keys_stay_unique (d : Db) :
  db_keys_ok d →
  (∀ r f, db_keys_ok (store_after r f d))
  ∧ (∀ sch routes,
       from_option (λ c', db_keys_ok c'.1) True
         (run_schedule sch (d, spawn <$> routes))).
Proof.
  intros Hd. split; [intros; by apply store_after_keys_ok|].
  intros sch routes.
  destruct (run_schedule sch (d, spawn <$> routes)) as [c'|] eqn:H; [|done].
  simpl. by apply (run_schedule_keys_ok sch (d, spawn <$> routes)).
Qed.

Lemma keys_stay_unique_witness :
  (∀ r f, db_keys_ok (store_after r f empty_db))
  ∧ (∀ sch routes,
       from_option (λ c', db_keys_ok c'.1) True
         (run_schedule sch (empty_db, spawn <$> routes))).
Proof.
  apply (keys_stay_unique empty_db). by_evaluation.
Defined.

Example racing_seeders_keys :
  observe (λ d _, User.id <$> user_table d)
    (run_schedule (guards_first ++ then_each_in_turn)
       (empty_db, spawn <$> [RouteTestDb; RouteTestDb]))
  = Some [Some 1; Some 2; Some 3; Some 4; Some 5; Some 6].
Proof. by vm_compute. Qed.

(** ** Referential integrity among concurrent requests *)

Lemma find_is_Some {A} (P : A → bool) (l : list A) x :
  In x l → P x = true → is_Some (find P l).
Proof.
  intros Hin HP. destruct (find P l) as [y|] eqn:Hf; [by eexists|].
  by rewrite (find_none P l Hf x Hin) in HP.
Qed.

Lemma find_is_Some_prefix {A} (P : A → bool) (l l' : list A) :
  l `prefix_of` l' → is_Some (find P l) → is_Some (find P l').
Proof.
  intros [k ->] [x Hx]. apply find_some in Hx as [Hin HP].
  apply (find_is_Some P _ x); [|done]. apply in_or_app. by left.
Qed.

Lemma owner_of_prefix d us' x :
  user_table d `prefix_of` us' →
  is_Some (owner_of d x) →
  is_Some (owner_of (mkDb us' (todo_table d)) x).
Proof.
  unfold owner_of. destruct (Todo.user_id x) as [i|]; simpl; [|done].
  apply find_is_Some_prefix.
Qed.

Lemma referential_integrity_more_users d us' :
  user_table d `prefix_of` us' →
  referential_integrity d →
  referential_integrity (mkDb us' (todo_table d)).
Proof.
  unfold referential_integrity. simpl. intros Hp Hd.
  eapply Forall_impl; [exact Hd|]. intros x. by apply owner_of_prefix.
Qed.

Lemma has_user_grows d d' i : grows d d' → has_user d i → has_user d' i.
Proof.
  intros [[k Hk] _] (u & Hin & Hid). exists u. split; [|done].
  rewrite Hk. apply in_or_app. by left.
Qed.

Lemma referential_integrity_more_todos d xs' :
  Forall (λ x, ∃ i, Todo.user_id x = Some i ∧ has_user d i) xs' →
  referential_integrity d →
  referential_integrity (mkDb (user_table d) (todo_table d ++ xs')).
Proof.
  unfold referential_integrity. simpl. intros Hnew Hold.
  apply Forall_app. split.
  - eapply Forall_impl; [exact Hold|]. intros x. by destruct d.
  - eapply Forall_impl; [exact Hnew|].
    intros x (i & Hi & u & Hin & Hid). unfold owner_of. rewrite Hi. simpl.
    apply (find_is_Some _ _ u Hin). by apply bool_decide_eq_true.
Qed.

Ltac read_step :=
  let d := fresh "d" in
  let Hg := fresh "Hg" in
  let Hi := fresh "Hi" in
  intros d Hg Hi; split; [exact Hi|].

Lemma test_db_keeps_integrity d : keeps_integrity d test_db new_session.
Proof.
  unfold test_db. simpl. intros d1 Hg1 Hi1. split; [done|].
  destruct (user_table d1) as [|u us] eqn:Hu1; simpl.
  2: { do 7 read_step. done. }
  do 4 read_step.
  intros dc Hgc Hic.
  set (i1 := next_id (User.id <$> user_table dc)).
  set (u1 := User.with_id i1 _).
  set (i2 := next_id (User.id <$> user_table dc ++ [u1])).
  set (u2 := User.with_id i2 _).
  set (i3 := next_id (User.id <$> (user_table dc ++ [u1]) ++ [u2])).
  set (u3 := User.with_id i3 _).
  set (d6 := mkDb _ (todo_table dc)).
  assert (has_user d6 i1 ∧ has_user d6 i2 ∧ has_user d6 i3) as (H1 & H2 & H3).
  { split; [|split]; [exists u1|exists u2|exists u3];
      (split; [|done]); simpl; rewrite !in_app_iff; simpl; tauto. }
  split.
  { apply (referential_integrity_more_users dc); [|done].
    rewrite <- !app_assoc. by apply prefix_app_r. }
  intros d7 Hg7 Hi7. split; [done|].
  intros d8 Hg8 Hi8. split; [done|].
  intros d9 Hg9 Hi9. split; [done|].
  intros d10 Hg10 Hi10. split; [done|].
  intros d11 Hg11 Hi11. split; [done|].
  intros d12 Hg12 Hi12. split; [done|].
  intros d13 Hg13 Hi13. split; [done|].
  intros d14 Hg14 Hi14.
  assert (grows d6 d14) as Hgrow.
  { repeat (etrans; [eassumption|]). reflexivity. }
  split.
  { unfold attr_id. simpl. rewrite <- !app_assoc.
    apply (referential_integrity_more_todos d14); [|done].
    repeat constructor; eexists; (split; [reflexivity|]);
      by apply (has_user_grows d6). }
  do 7 read_step. done.
Qed.

Lemma view_keeps_integrity r d : keeps_integrity d (view r) new_session.
Proof. destruct r; [done|apply test_db_keeps_integrity]. Qed.

Lemma sched_step_keeps_integrity i d ts c' :
  referential_integrity d →
  threads_keep_integrity d ts →
  sched_step i (d, ts) = Some c' →
  referential_integrity c'.1 ∧ threads_keep_integrity c'.1 c'.2.
Proof.
  unfold sched_step, step_thread, threads_keep_integrity. simpl.
  intros Hd Hts.
  destruct (ts !! i) as [t|] eqn:Hi; [|done]. simpl.
  destruct (Forall_lookup_1 _ _ _ _ Hts Hi) as (d0 & Hg & Ht).
  destruct (code t) as [resp|X e k]; [done|]. simpl in *.
  destruct (Ht d Hg Hd) as [Hd1 Hk].
  pose proof (exec_grows e d (sess t)) as He.
  destruct (exec e d (sess t)) as [[x d1] s1]. simpl in *.
  intros [= <-]. simpl. split; [done|].
  apply Forall_insert.
  - eapply Forall_impl; [exact Hts|].
    intros t' (d0' & Hg' & Ht'). exists d0'. split; [by etrans|done].
  - exists d1. by split.
Qed.

Lemma run_schedule_keeps_integrity sch d ts c' :
  referential_integrity d →
  threads_keep_integrity d ts →
  run_schedule sch (d, ts) = Some c' →
  referential_integrity c'.1.
Proof.
  revert d ts. induction sch as [|i sch IH]; intros d ts Hd Hts; simpl.
  - by intros [= <-].
  - destruct (sched_step i (d, ts)) as [[d1 ts1]|] eqn:Hs; [|done]. simpl.
    destruct (sched_step_keeps_integrity i d ts _ Hd Hts Hs) as [Hd1 Hts1].
    by apply IH.
Qed.

(** X10: referential integrity survives concurrency.  From a store in
    which every Todo's owner reference resolves, any number of requests to
    the two routes, their ORM calls interleaved in any order, lead only to
    stores in which every Todo's owner reference resolves: a seeding request
    creates its todos from the keys of the users it has itself committed
    before, and no other request removes them. *)
Theorem referential_integrity_under_concurrency
    (d : Db) (routes : list Route) (sch : list nat) :
  referential_integrity d →
  from_option (λ c', referential_integrity c'.1) True
    (run_schedule sch (d, spawn <$> routes)).
Proof.
  intros Hd.
  destruct (run_schedule sch (d, spawn <$> routes)) as [c'|] eqn:H; [|done].
  simpl.
  apply (run_schedule_keeps_integrity sch d (spawn <$> routes)); [done| |done].
  apply Forall_fmap, Forall_forall. intros r _. simpl.
  exists d. split; [done|apply view_keeps_integrity].
Qed.

Lemma referential_integrity_under_concurrency_witness :
  from_option (λ c', referential_integrity c'.1) True
    (run_schedule (guards_first ++ then_each_in_turn)
       (empty_db, spawn <$> [RouteTestDb; RouteTestDb])).
Proof.
  apply (referential_integrity_under_concurrency empty_db
    [RouteTestDb; RouteTestDb] (guards_first ++ then_each_in_turn)).
  by_evaluation.
Defined.

(** ** Requests served one at a time *)

(** X11: served one after the other, requests never duplicate a seed user.
    In every store reached from the empty one by a sequence of requests,
    under any storage faults, no username and no email occurs twice; the
    duplicates of racing requests need the interleaving. *)
Theorem sequential_requests_never_duplicate
    (reqs : list (Route * option nat)) :
  NoDup (User.username <$> user_table (serve_all reqs empty_db))
  ∧ NoDup (User.email <$> user_table (serve_all reqs empty_db)).
Proof.
  destruct (serve_all_from_empty reqs) as [->|[->| ->]];
    split; by_evaluation.
Qed.
